(** * Tree options of the oversight supervisor (tree_options.go)

    A shallow embedding of the option functions that assemble the
    configuration of a supervision tree before it starts, and the
    properties of the registration path ([Process], [Processes],
    [WithTree]) and of the intensity and strategy setters. *)

From Stdlib Require Import ZArith.
From stdpp Require Import base option list strings gmap pretty.

Local Open Scope Z_scope.
Local Open Scope string_scope.
Local Open Scope list_scope.

(** ** Values that come from the rest of the package *)

(** [time.Duration] is a 64-bit count of nanoseconds; the options only
    store durations, no arithmetic is done on them here. *)
Definition Duration : Type := Z.

(** Modelled from the spec: the restart policies are declared outside
    tree_options.go. A [Restart] is a Go function value, so it may be
    nil ([None]); the package's constructors return one of the three
    policies of section 4.1. *)
Inductive restartFn : Type := permanentFn | transientFn | temporaryFn.
Definition Restart : Type := option restartFn.
Definition Permanent : Restart := Some permanentFn.

(** Modelled from the spec: the shutdown policies are declared outside
    tree_options.go; section 4.2 has a timeout of a given duration and
    an unbounded wait. A [Shutdown] is a nil-able function value. *)
Inductive shutdownFn : Type := timeoutFn (d : Duration) | infinityFn.
Definition Shutdown : Type := option shutdownFn.
Definition Timeout (d : Duration) : Shutdown := Some (timeoutFn d).
Definition Infinity : Shutdown := Some infinityFn.

(** Modelled from the spec: the restart strategies are declared outside
    tree_options.go; section 4.4 lists three of them. A [Strategy] is a
    nil-able function value as well. *)
Inductive strategyFn : Type := oneForOneFn | oneForAllFn | restForOneFn.
Definition Strategy : Type := option strategyFn.
Definition OneForOne : Strategy := Some oneForOneFn.

(** A pointer to a [Tree]: nil, or the address of a tree. *)
Inductive TreeRef : Type := nilTree | treeAt (addr : nat).

(** A [ChildProcess] is a function value: nil ([None]), a function the
    caller supplies (told apart by an identifier), or the method value
    [subTree.Start] bound to a tree pointer. *)
Inductive processFn : Type := userFn (f : nat) | startOf (subTree : TreeRef).
Definition ChildProcess : Type := option processFn.

(** A [Logger] is an interface value: nil, or some implementation. *)
Definition Logger : Type := option nat.

(** [ChildProcessSpecification], with the four fields that
    tree_options.go reads and writes. *)
Record ChildProcessSpecification : Type := mkSpec {
  specName : string;
  specRestart : Restart;
  specShutdown : Shutdown;
  specStart : ChildProcess
}.

(** The [stop] closure of a child's runtime state. [Process] installs
    the one that logs "stopped before start"; any other closure is put
    there by the control loop, outside this file. *)
Inductive stopFn : Type := printlnStoppedBeforeStart | otherStop (f : nat).

(** Modelled from the spec: the [state] struct is declared outside
    tree_options.go; [Process] sets its [stop] field and leaves the
    other fields at their zero value. *)
Record state : Type := mkState { stop : stopFn }.

(** Modelled from the spec: the [Tree] struct is declared outside
    tree_options.go; these are the fields the options read and write.
    [processIndex] is an initialised map from child name to position. *)
Record Tree : Type := mkTree {
  maxR : Z;
  maxT : Duration;
  strategy : Strategy;
  states : list state;
  processes : list ChildProcessSpecification;
  processIndex : gmap string nat;
  logger : Logger
}.

(** Field assignments. *)
Definition set_maxR (v : Z) (t : Tree) : Tree :=
  mkTree v (maxT t) (strategy t) (states t) (processes t) (processIndex t) (logger t).
Definition set_maxT (v : Duration) (t : Tree) : Tree :=
  mkTree (maxR t) v (strategy t) (states t) (processes t) (processIndex t) (logger t).
Definition set_strategy (v : Strategy) (t : Tree) : Tree :=
  mkTree (maxR t) (maxT t) v (states t) (processes t) (processIndex t) (logger t).
Definition set_states (v : list state) (t : Tree) : Tree :=
  mkTree (maxR t) (maxT t) (strategy t) v (processes t) (processIndex t) (logger t).
Definition set_processes (v : list ChildProcessSpecification) (t : Tree) : Tree :=
  mkTree (maxR t) (maxT t) (strategy t) (states t) v (processIndex t) (logger t).
Definition set_processIndex (v : gmap string nat) (t : Tree) : Tree :=
  mkTree (maxR t) (maxT t) (strategy t) (states t) (processes t) v (logger t).
Definition set_logger (v : Logger) (t : Tree) : Tree :=
  mkTree (maxR t) (maxT t) (strategy t) (states t) (processes t) (processIndex t) v.

Definition set_specName (v : string) (s : ChildProcessSpecification) :=
  mkSpec v (specRestart s) (specShutdown s) (specStart s).
Definition set_specRestart (v : Restart) (s : ChildProcessSpecification) :=
  mkSpec (specName s) v (specShutdown s) (specStart s).
Definition set_specShutdown (v : Shutdown) (s : ChildProcessSpecification) :=
  mkSpec (specName s) (specRestart s) v (specStart s).

(** ** Options as state transformers that may panic *)

(** An option runs against the tree behind a pointer. It either returns,
    leaving the tree [t], or panics with a message; the writes made
    before the panic stay in the tree, so the panic carries it too. *)
Inductive outcome : Type :=
| Done (t : Tree)
| Panic (msg : string) (t : Tree).

(** A [TreeOption] is a function that takes a pointer to a [Tree]. *)
Definition TreeOption : Type := Tree -> outcome.

Definition treeOf (o : outcome) : Tree :=
  match o with Done t => t | Panic _ t => t end.

(** Sequencing of two statements: a panic skips what follows. *)
Definition andThen (o : outcome) (k : TreeOption) : outcome :=
  match o with
  | Done t => k t
  | Panic msg t => Panic msg t
  end.

Notation "o ;;; k" := (andThen o k) (at level 61, left associativity).

(** ** The options *)

Definition WithRestartIntensity (maxR' : Z) (maxT' : Duration) : TreeOption :=
  fun t => Done (set_maxT maxT' (set_maxR maxR' t)).

Definition WithRestartStrategy (strategy' : Strategy) : TreeOption :=
  fun t => Done (set_strategy strategy' t).

Definition WithSpecification (maxR' : Z) (maxT' : Duration) (strategy' : Strategy)
    : TreeOption :=
  fun t => WithRestartIntensity maxR' maxT' t ;;; WithRestartStrategy strategy'.

(** The other side of the comparison with [WithSpecification]: the
    tolerance setter, then the strategy setter, on the same tree. *)
Definition intensityThenStrategy (maxR' : Z) (maxT' : Duration) (strategy' : Strategy)
    : TreeOption :=
  fun t =>
    match WithRestartIntensity maxR' maxT' t with
    | Done t1 => WithRestartStrategy strategy' t1
    | Panic msg t1 => Panic msg t1
    end.

Definition NeverHalt : TreeOption :=
  fun t => Done (set_maxR (-1) t).

Definition DefaultMaxR : Z := 1.
Definition Second : Duration := 1000000000.
Definition DefaultMaxT : Duration := 5 * Second.

Definition DefaultRestartIntensity : TreeOption :=
  fun t => Done (set_maxT DefaultMaxT (set_maxR DefaultMaxR t)).

Definition DefaultRestartStrategy : TreeOption :=
  fun t => Done (set_strategy OneForOne t).

Definition WithLogger (logger' : Logger) : TreeOption :=
  fun t => Done (set_logger logger' t).

(** [fmt.Sprintf("childproc %d", id)] *)
Definition autoName (id : nat) : string := "childproc " +:+ pretty id.

(** [fmt.Sprint(" ", id)]: the first operand is a string, so no space
    is added between the two. *)
Definition idSuffix (id : nat) : string := " " +:+ pretty id.

Section Registration.

(** The constant [DefaultChildProcessTimeout] is declared outside
    tree_options.go; it is taken as a parameter. *)
Variable DefaultChildProcessTimeout : Duration.

(** [Process(spec)(t)]. The specification is passed by value: the
    assignments to [spec] change the closure's own copy, which is the
    one appended to the tree. *)
Definition Process (spec : ChildProcessSpecification) : TreeOption := fun t =>
  let id := (length (processes t) + 1)%nat in
  let t := set_states (states t ++ [mkState printlnStoppedBeforeStart]) t in
  let spec :=
    if decide (specName spec = "") then set_specName (autoName id) spec else spec in
  let spec :=
    match processIndex t !! specName spec with
    | Some _ => set_specName (specName spec +:+ idSuffix id) spec
    | None => spec
    end in
  let spec :=
    match specRestart spec with
    | None => set_specRestart Permanent spec
    | Some _ => spec
    end in
  let spec :=
    match specShutdown spec with
    | None => set_specShutdown (Timeout DefaultChildProcessTimeout) spec
    | Some _ => spec
    end in
  match specStart spec with
  | None => Panic "child process must always have a function" t
  | Some _ =>
      let t := set_processes (processes t ++ [spec]) t in
      Done (set_processIndex (<[specName spec := (id - 1)%nat]> (processIndex t)) t)
  end.

(** [Processes(processes...)(t)]: the loop over the arguments. *)
Fixpoint Processes (ps : list ChildProcess) : TreeOption := fun t =>
  match ps with
  | [] => Done t
  | p :: ps' => Process (mkSpec "" Permanent None p) t ;;; Processes ps'
  end.

(** [WithTree(subTree)(t)]. The method value [subTree.Start] is formed
    without reading the tree behind the pointer. *)
Definition WithTree (subTree : TreeRef) : TreeOption := fun t =>
  Process (mkSpec "" Permanent Infinity (Some (startOf subTree))) t.

(** One registration call, as a caller writes it. *)
Inductive registration : Type :=
| viaProcess (spec : ChildProcessSpecification)
| viaProcesses (ps : list ChildProcess)
| viaWithTree (subTree : TreeRef).

Definition register (r : registration) : TreeOption :=
  match r with
  | viaProcess spec => Process spec
  | viaProcesses ps => Processes ps
  | viaWithTree subTree => WithTree subTree
  end.

(** A sequence of registration calls applied one after the other. *)
Fixpoint registerAll (rs : list registration) : TreeOption := fun t =>
  match rs with
  | [] => Done t
  | r :: rs' => register r t ;;; registerAll rs'
  end.

End Registration.

(** The names of the registered children, in registration order. *)
Definition childNames (t : Tree) : list string := specName <$> processes t.

(** The name [Process] settles on for a child registered under [name]
    in tree [t]: the two [if]s on [spec.Name], read off the code. *)
Definition finalName (t : Tree) (name : string) : string :=
  let id := (length (processes t) + 1)%nat in
  let name := if decide (name = "") then autoName id else name in
  match processIndex t !! name with
  | Some _ => name +:+ idSuffix id
  | None => name
  end.

(** The specification [Process] appends for [spec] in tree [t]. *)
Definition registered (d : Duration) (t : Tree) (spec : ChildProcessSpecification)
    : ChildProcessSpecification :=
  mkSpec (finalName t (specName spec))
         (match specRestart spec with None => Permanent | Some r => Some r end)
         (match specShutdown spec with None => Timeout d | Some s => Some s end)
         (specStart spec).

(** The runtime state [Process] appends. *)
Definition freshState : state := mkState printlnStoppedBeforeStart.

(** The map agrees with the list: a name is a key of [processIndex]
    exactly when a registered child carries it. *)
Definition indexed (t : Tree) : Prop :=
  forall name, is_Some (processIndex t !! name) <-> name ∈ childNames t.

(** A registration call that leaves the naming to the tree. *)
Definition unnamed (r : registration) : Prop :=
  match r with
  | viaProcess spec => specName spec = ""
  | viaProcesses _ => True
  | viaWithTree _ => True
  end.

(** A registration call none of whose start functions is nil. *)
Definition startable (r : registration) : Prop :=
  match r with
  | viaProcess spec => specStart spec <> None
  | viaProcesses ps => Forall (fun p => p <> None) ps
  | viaWithTree _ => True
  end.

(** The number of children a registration call adds when it returns. *)
Definition arity (r : registration) : nat :=
  match r with
  | viaProcess _ => 1
  | viaProcesses ps => length ps
  | viaWithTree _ => 1
  end.

(** The children a sequence of registration calls adds when all return. *)
Definition added (rs : list registration) : nat := sum_list (arity <$> rs).

(** An option that keeps the children it finds, in their places,
    whether it returns or panics. *)
Definition keepsChildren (k : TreeOption) : Prop :=
  forall t, processes t `prefix_of` processes (treeOf (k t)).

(** One runtime state per registered child. *)
Definition balanced (t : Tree) : Prop :=
  length (states t) = length (processes t).

(** The children carry the generated names, in order, and the index
    knows exactly these names. *)
Definition autoNamed (t : Tree) : Prop :=
  indexed t /\ childNames t = autoName <$> seq 1 (length (processes t)).

(** A tree with no child registered yet. *)
Definition emptyTree : Tree :=
  mkTree DefaultMaxR DefaultMaxT OneForOne [] [] ∅ None.

(** A specification that sets only a name and a start function. *)
Definition named (name : string) (f : nat) : ChildProcessSpecification :=
  mkSpec name None None (Some (userFn f)).

(** Three registrations under explicit names, the third under the
    name of the first. *)
Definition collidingCalls : list registration :=
  [viaProcess (named "a" 0); viaProcess (named "a 3" 1); viaProcess (named "a" 2)].

(** A specification with a name and nothing else. *)
Definition noStart : ChildProcessSpecification := mkSpec "worker" None None None.

(** One configuration call, as a caller writes it. *)
Inductive setting : Type :=
| viaWithSpecification (maxR' : Z) (maxT' : Duration) (strategy' : Strategy)
| viaWithRestartIntensity (maxR' : Z) (maxT' : Duration)
| viaNeverHalt
| viaDefaultRestartIntensity
| viaWithRestartStrategy (strategy' : Strategy)
| viaDefaultRestartStrategy
| viaWithLogger (logger' : Logger).

Definition configure (s : setting) : TreeOption :=
  match s with
  | viaWithSpecification maxR' maxT' strategy' => WithSpecification maxR' maxT' strategy'
  | viaWithRestartIntensity maxR' maxT' => WithRestartIntensity maxR' maxT'
  | viaNeverHalt => NeverHalt
  | viaDefaultRestartIntensity => DefaultRestartIntensity
  | viaWithRestartStrategy strategy' => WithRestartStrategy strategy'
  | viaDefaultRestartStrategy => DefaultRestartStrategy
  | viaWithLogger logger' => WithLogger logger'
  end.

(** The closure that [Process(spec)] returns, run against [t]: the
    outcome, and the value its captured variable [spec] holds when the
    call ends. The assignments to [spec] come before the test of
    [spec.Start], so the variable has changed also when the call
    panics. *)
Definition ProcessClosure (d : Duration) (spec : ChildProcessSpecification) (t : Tree)
    : outcome * ChildProcessSpecification :=
  let id := (length (processes t) + 1)%nat in
  let t := set_states (states t ++ [mkState printlnStoppedBeforeStart]) t in
  let spec :=
    if decide (specName spec = "") then set_specName (autoName id) spec else spec in
  let spec :=
    match processIndex t !! specName spec with
    | Some _ => set_specName (specName spec +:+ idSuffix id) spec
    | None => spec
    end in
  let spec :=
    match specRestart spec with
    | None => set_specRestart Permanent spec
    | Some _ => spec
    end in
  let spec :=
    match specShutdown spec with
    | None => set_specShutdown (Timeout d) spec
    | Some _ => spec
    end in
  match specStart spec with
  | None => (Panic "child process must always have a function" t, spec)
  | Some _ =>
      let t := set_processes (processes t ++ [spec]) t in
      (Done (set_processIndex (<[specName spec := (id - 1)%nat]> (processIndex t)) t),
       spec)
  end.

(** One option value applied twice to the same tree:
    [opt := Process(spec); opt(t); opt(t)]. The second run starts from
    the captured variable as the first run left it. *)
Definition ProcessTwice (d : Duration) (spec : ChildProcessSpecification) : TreeOption :=
  fun t =>
    let '(o, spec1) := ProcessClosure d spec t in
    o ;;; (fun t1 => fst (ProcessClosure d spec1 t1)).

(** Every entry of the index leads to a child that carries the name. *)
Definition wellIndexed (t : Tree) : Prop :=
  forall name i, processIndex t !! name = Some i -> childNames t !! i = Some name.

(** Every child is the one the index gives for its name. *)
Definition reachable (t : Tree) : Prop :=
  forall i name, childNames t !! i = Some name -> processIndex t !! name = Some i.

(** No child carries the empty name. *)
Definition allNamed (t : Tree) : Prop :=
  Forall (fun name => name <> "") (childNames t).

(** Two trees with the same tolerance, strategy and logger. *)
Definition sameSettings (t u : Tree) : Prop :=
  maxR u = maxR t /\ maxT u = maxT t /\ strategy u = strategy t /\ logger u = logger t.

(** Two trees with the same runtime states, children and index. *)
Definition sameChildren (t u : Tree) : Prop :=
  states u = states t /\ processes u = processes t /\ processIndex u = processIndex t.

(** The tree [t] with its tolerance, strategy and logger replaced. *)
Definition withSettings (r : Z) (m : Duration) (s : Strategy) (l : Logger) (t : Tree)
    : Tree :=
  mkTree r m s (states t) (processes t) (processIndex t) l.

(** A change of the tree seen through an outcome. *)
Definition onTree (g : Tree -> Tree) (o : outcome) : outcome :=
  match o with
  | Done t => Done (g t)
  | Panic msg t => Panic msg (g t)
  end.

(** A tree that holds one child, registered under the name "a". *)
Definition oneChild : Tree :=
  mkTree DefaultMaxR DefaultMaxT OneForOne [freshState]
    [mkSpec "a" Permanent (Timeout (5 * Second)) (Some (userFn 0))]
    {["a" := 0%nat]} None.

(** A specification in which every field is given. *)
Definition complete : ChildProcessSpecification :=
  mkSpec "db" (Some transientFn) (Some infinityFn) (Some (userFn 1)).

(** Calls that leave every name to the tree. *)
Definition unnamedCalls : list registration :=
  [viaProcesses [Some (userFn 0); Some (userFn 1)];
   viaWithTree (treeAt 7);
   viaProcess (mkSpec "" None None (Some (userFn 2)))].

(** ** What one call of [Process] does *)

Lemma Process_Some d spec t f :
  specStart spec = Some f ->
  Process d spec t =
    Done (mkTree (maxR t) (maxT t) (strategy t)
            (states t ++ [freshState])
            (processes t ++ [registered d t spec])
            (<[finalName t (specName spec) := length (processes t)]> (processIndex t))
            (logger t)).
Proof.
  intros Hf. destruct spec as [n r s st]; simpl in Hf; subst st.
  unfold Process, registered, finalName, set_processIndex, set_processes,
    set_states, freshState; simpl.
  replace (length (processes t) + 1 - 1)%nat with (length (processes t)) by lia.
  destruct (decide (n = "")); simpl;
    (match goal with |- context [processIndex t !! ?k] =>
       destruct (processIndex t !! k) end); simpl;
    destruct r, s; reflexivity.
Qed.

Lemma Process_None d spec t :
  specStart spec = None ->
  Process d spec t =
    Panic "child process must always have a function"
          (set_states (states t ++ [freshState]) t).
Proof.
  intros Hf. destruct spec as [n r s st]; simpl in Hf; subst st.
  unfold Process, freshState; simpl.
  destruct (decide (n = "")); simpl;
    (match goal with |- context [processIndex t !! ?k] =>
       destruct (processIndex t !! k) end); simpl;
    destruct r, s; reflexivity.
Qed.

(** [Process] either returns or panics, and which one depends on the
    start function alone. *)
Lemma Process_cases d spec t :
  (exists f, specStart spec = Some f /\
     Process d spec t =
       Done (mkTree (maxR t) (maxT t) (strategy t)
               (states t ++ [freshState])
               (processes t ++ [registered d t spec])
               (<[finalName t (specName spec) := length (processes t)]> (processIndex t))
               (logger t))) \/
  (specStart spec = None /\
     Process d spec t =
       Panic "child process must always have a function"
             (set_states (states t ++ [freshState]) t)).
Proof.
  destruct (specStart spec) as [f|] eqn:E.
  - left. exists f. split; [reflexivity | exact (Process_Some _ _ _ _ E)].
  - right. split; [reflexivity | exact (Process_None _ _ _ E)].
Qed.

(** ** Setters of the restart tolerance and of the strategy *)

(** C6: [NeverHalt] returns with [maxR] set to [-1]; [maxT], the
    strategy, the runtime states, the child list, the name index and
    the logger are the ones the tree had before. *)
Theorem NeverHalt_sets_maxR_only t :
  exists t', NeverHalt t = Done t' /\
    maxR t' = -1 /\
    maxT t' = maxT t /\
    strategy t' = strategy t /\
    states t' = states t /\
    processes t' = processes t /\
    processIndex t' = processIndex t /\
    logger t' = logger t.
Proof. exists (set_maxR (-1) t). repeat split. Qed.

(** Running option [a] and then option [b] against the same tree. *)
Lemma andThen_Done t k : Done t ;;; k = k t.
Proof. reflexivity. Qed.

Lemma andThen_Panic msg t k : Panic msg t ;;; k = Panic msg t.
Proof. reflexivity. Qed.

Lemma andThen_assoc o k1 k2 : o ;;; k1 ;;; k2 = o ;;; (fun t => k1 t ;;; k2).
Proof. destruct o; reflexivity. Qed.

Lemma WithRestartIntensity_fields r m t :
  WithRestartIntensity r m t =
    Done (mkTree r m (strategy t) (states t) (processes t) (processIndex t) (logger t)).
Proof. reflexivity. Qed.

Lemma WithRestartStrategy_fields s t :
  WithRestartStrategy s t =
    Done (mkTree (maxR t) (maxT t) s (states t) (processes t) (processIndex t) (logger t)).
Proof. reflexivity. Qed.

(** C10: on every tree, [WithSpecification maxR maxT strategy] ends in
    the same outcome as [WithRestartIntensity maxR maxT] followed by
    [WithRestartStrategy strategy]: both return, with the three fields
    set and the rest of the tree untouched. *)
Theorem WithSpecification_is_intensity_then_strategy r m s t :
  WithSpecification r m s t = intensityThenStrategy r m s t /\
  WithSpecification r m s t =
    Done (mkTree r m s (states t) (processes t) (processIndex t) (logger t)).
Proof.
  split.
  - unfold WithSpecification, intensityThenStrategy.
    rewrite WithRestartIntensity_fields, !andThen_Done. reflexivity.
  - unfold WithSpecification.
    rewrite WithRestartIntensity_fields, andThen_Done, WithRestartStrategy_fields.
    reflexivity.
Qed.

(** ** Registration of one child *)

(** C2: when the start function is nil, [Process] panics. The child
    list and the name index of the tree are then the ones it had before
    the call, and no later registration of the same sequence runs. *)
Theorem Process_nil_Start_panics d spec t (Hnil : specStart spec = None) :
  exists msg t',
    Process d spec t = Panic msg t' /\
    processes t' = processes t /\
    processIndex t' = processIndex t /\
    forall rs, registerAll d (viaProcess spec :: rs) t = Panic msg t'.
Proof.
  eexists _, _. split; [exact (Process_None d spec t Hnil) |].
  repeat split. intros rs. simpl. rewrite (Process_None d spec t Hnil).
  reflexivity.
Qed.

(** C3: a specification with no restart policy and a start function is
    registered with the [Permanent] policy. *)
Theorem Process_default_Restart d spec t
    (Hnil : specRestart spec = None) (Hstart : specStart spec <> None) :
  exists t' spec',
    Process d spec t = Done t' /\
    processes t' = processes t ++ [spec'] /\
    specRestart spec' = Permanent.
Proof.
  destruct (specStart spec) as [f|] eqn:E; [| done].
  eexists _, (registered d t spec).
  split; [exact (Process_Some d spec t f E) |].
  split; [reflexivity |]. simpl. by rewrite Hnil.
Qed.

(** C4: a specification with no shutdown policy and a start function is
    registered with [Timeout DefaultChildProcessTimeout]. *)
Theorem Process_default_Shutdown d spec t
    (Hnil : specShutdown spec = None) (Hstart : specStart spec <> None) :
  exists t' spec',
    Process d spec t = Done t' /\
    processes t' = processes t ++ [spec'] /\
    specShutdown spec' = Timeout d.
Proof.
  destruct (specStart spec) as [f|] eqn:E; [| done].
  eexists _, (registered d t spec).
  split; [exact (Process_Some d spec t f E) |].
  split; [reflexivity |]. simpl. by rewrite Hnil.
Qed.

(** C7: [WithTree subTree] returns, having appended one child whose
    start function is [subTree.Start], whose shutdown policy is
    [Infinity] and whose restart policy is [Permanent]. *)
Theorem WithTree_registers_subtree d subTree t :
  exists t' spec',
    WithTree d subTree t = Done t' /\
    processes t' = processes t ++ [spec'] /\
    specStart spec' = Some (startOf subTree) /\
    specShutdown spec' = Infinity /\
    specRestart spec' = Permanent.
Proof.
  unfold WithTree. eexists _, _.
  split; [exact (Process_Some d (mkSpec "" Permanent Infinity (Some (startOf subTree)))
                  t (startOf subTree) eq_refl) |].
  repeat split.
Qed.

(** ** The child list only grows *)

Lemma Process_keepsChildren d spec : keepsChildren (Process d spec).
Proof.
  intros t. destruct (Process_cases d spec t) as [(f & _ & ->) | (_ & ->)]; simpl.
  - by apply prefix_app_r.
  - reflexivity.
Qed.

Lemma andThen_keepsChildren (k1 k2 : TreeOption) :
  keepsChildren k1 -> keepsChildren k2 -> keepsChildren (fun t => k1 t ;;; k2).
Proof.
  intros H1 H2 t. specialize (H1 t).
  destruct (k1 t) as [t1 | msg t1]; simpl in *; [| done].
  etrans; [exact H1 | apply H2].
Qed.

Lemma Processes_keepsChildren d ps : keepsChildren (Processes d ps).
Proof.
  induction ps as [| p ps IH]; [by intros t |].
  apply (andThen_keepsChildren (Process d _) (Processes d ps));
    [apply Process_keepsChildren | exact IH].
Qed.

Lemma register_keepsChildren d r : keepsChildren (register d r).
Proof.
  destruct r; simpl.
  - apply Process_keepsChildren.
  - apply Processes_keepsChildren.
  - apply Process_keepsChildren.
Qed.

Lemma registerAll_keepsChildren d rs : keepsChildren (registerAll d rs).
Proof.
  induction rs as [| r rs IH]; [by intros t |].
  apply (andThen_keepsChildren (register d r) (registerAll d rs));
    [apply register_keepsChildren | exact IH].
Qed.

(** C5: with a start function, [Process] returns with one more child,
    placed after the children the tree had, which keep their content
    and their positions. Whatever [Process], [Processes] or [WithTree]
    is applied, alone or in a sequence, and whether it returns or
    panics, the children the tree had are an initial segment of the
    children it has afterwards. *)
Theorem Process_appends_one_child d spec t (Hstart : specStart spec <> None) :
  (exists t' spec',
     Process d spec t = Done t' /\
     processes t' = processes t ++ [spec'] /\
     forall i old, processes t !! i = Some old -> processes t' !! i = Some old) /\
  (forall spec0 u, processes u `prefix_of` processes (treeOf (Process d spec0 u))) /\
  (forall ps u, processes u `prefix_of` processes (treeOf (Processes d ps u))) /\
  (forall subTree u, processes u `prefix_of` processes (treeOf (WithTree d subTree u))) /\
  (forall rs u, processes u `prefix_of` processes (treeOf (registerAll d rs u))).
Proof.
  split; [| split; [| split; [| split]]].
  - destruct (specStart spec) as [f|] eqn:E; [| done].
    eexists _, (registered d t spec).
    split; [exact (Process_Some d spec t f E) |]. simpl.
    split; [reflexivity |]. intros i old Hi. by apply lookup_app_l_Some.
  - intros spec0. apply Process_keepsChildren.
  - intros ps. apply Processes_keepsChildren.
  - intros subTree. apply (register_keepsChildren d (viaWithTree subTree)).
  - intros rs. apply registerAll_keepsChildren.
Qed.

(** C8: [Processes] applied to n functions returns, having appended n
    children after the ones the tree had; the k-th of them runs the
    k-th argument, and each has the [Permanent] restart policy. *)
Theorem Processes_appends_permanent_children d (fs : list processFn) t :
  exists t' specs,
    Processes d (Some <$> fs) t = Done t' /\
    processes t' = processes t ++ specs /\
    length specs = length fs /\
    specStart <$> specs = Some <$> fs /\
    Forall (fun s => specRestart s = Permanent) specs.
Proof.
  revert t. induction fs as [| f fs IH]; intros t.
  - exists t, []. simpl. by rewrite app_nil_r.
  - simpl.
    rewrite (Process_Some d (mkSpec "" Permanent None (Some f)) t f eq_refl).
    rewrite andThen_Done.
    match goal with |- context [Processes d _ ?u] =>
      destruct (IH u) as (t' & specs & E & Hps & Hlen & Hst & Hre) end.
    simpl in Hps.
    exists t', (registered d t (mkSpec "" Permanent None (Some f)) :: specs).
    split; [exact E |].
    split; [by rewrite Hps, <- app_assoc |].
    split; [simpl; by rewrite Hlen |].
    split; [rewrite !fmap_cons; by rewrite Hst |].
    constructor; [reflexivity | exact Hre].
Qed.

(** ** One runtime state per child *)

Lemma Process_balanced d spec t t' :
  balanced t -> Process d spec t = Done t' -> balanced t'.
Proof.
  unfold balanced. intros Hb HP.
  destruct (Process_cases d spec t) as [(f & _ & E) | (_ & E)];
    rewrite E in HP; [| discriminate].
  injection HP as <-. simpl. rewrite !length_app. simpl. lia.
Qed.

(** At a panic the runtime state of the refused child is already in. *)
Lemma Process_panic_states d spec t msg t' :
  Process d spec t = Panic msg t' ->
  states t' = states t ++ [freshState] /\ processes t' = processes t.
Proof.
  intros HP.
  destruct (Process_cases d spec t) as [(f & _ & E) | (_ & E)];
    rewrite E in HP; [discriminate |].
  injection HP as _ <-. by split.
Qed.

Lemma andThen_Done_inv o k t' :
  o ;;; k = Done t' -> exists t1, o = Done t1 /\ k t1 = Done t'.
Proof. destruct o as [t1 | msg t1]; simpl; [eauto | discriminate]. Qed.

Lemma Processes_balanced d ps t t' :
  balanced t -> Processes d ps t = Done t' -> balanced t'.
Proof.
  revert t. induction ps as [| p ps IH]; simpl; intros t Hb HP.
  - by injection HP as <-.
  - apply andThen_Done_inv in HP as (t1 & H1 & H2).
    eapply IH; [| exact H2]. by eapply Process_balanced.
Qed.

Lemma register_balanced d r t t' :
  balanced t -> register d r t = Done t' -> balanced t'.
Proof.
  destruct r; simpl.
  - apply Process_balanced.
  - apply Processes_balanced.
  - apply Process_balanced.
Qed.

Lemma registerAll_balanced d rs t t' :
  balanced t -> registerAll d rs t = Done t' -> balanced t'.
Proof.
  revert t. induction rs as [| r rs IH]; simpl; intros t Hb HP.
  - by injection HP as <-.
  - apply andThen_Done_inv in HP as (t1 & H1 & H2).
    eapply IH; [| exact H2]. by eapply register_balanced.
Qed.

(** Calls whose start functions are all there return. *)
Lemma Process_returns d spec t :
  specStart spec <> None ->
  exists t', Process d spec t = Done t' /\
    length (processes t') = (length (processes t) + 1)%nat.
Proof.
  intros Hs. destruct (specStart spec) as [f|] eqn:E; [| done].
  eexists. split; [exact (Process_Some d spec t f E) |].
  simpl. by rewrite length_app.
Qed.

Lemma Processes_returns d ps t :
  Forall (fun p => p <> None) ps ->
  exists t', Processes d ps t = Done t' /\
    length (processes t') = (length (processes t) + length ps)%nat.
Proof.
  intros Hps. revert t. induction Hps as [| p ps Hp _ IH]; intros t; simpl.
  - exists t. split; [reflexivity | lia].
  - destruct (Process_returns d (mkSpec "" Permanent None p) t Hp) as (t1 & -> & L1).
    destruct (IH t1) as (t' & E & L). exists t'.
    split; [exact E | lia].
Qed.

Lemma register_returns d r t :
  startable r ->
  exists t', register d r t = Done t' /\
    length (processes t') = (length (processes t) + arity r)%nat.
Proof.
  destruct r; simpl; intros Hs.
  - by apply Process_returns.
  - by apply Processes_returns.
  - by apply Process_returns.
Qed.

Lemma registerAll_returns d rs t :
  Forall startable rs ->
  exists t', registerAll d rs t = Done t' /\
    length (processes t') = (length (processes t) + added rs)%nat.
Proof.
  intros Hrs. revert t. induction Hrs as [| r rs Hr _ IH]; intros t; simpl.
  - exists t. split; [reflexivity | unfold added; simpl; lia].
  - destruct (register_returns d r t Hr) as (t1 & -> & L1).
    destruct (IH t1) as (t' & E & L). exists t'.
    split; [exact E |]. unfold added in *. rewrite fmap_cons. simpl. lia.
Qed.

(** C9: in a tree with one runtime state per child, a [Process] that
    returns has appended one runtime state along with the one child;
    every sequence of registration calls that returns leaves one
    runtime state per child; and a sequence in which no start function
    is nil does return, with as many children more as it registers. *)
Theorem registration_adds_runtime_state d t
    (Hbal : length (states t) = length (processes t)) :
  (forall spec t', Process d spec t = Done t' ->
     states t' = states t ++ [freshState] /\
     exists spec', processes t' = processes t ++ [spec']) /\
  (forall rs t', registerAll d rs t = Done t' ->
     length (states t') = length (processes t')) /\
  (forall rs, Forall startable rs ->
     exists t', registerAll d rs t = Done t' /\
       length (states t') = length (processes t') /\
       length (processes t') = (length (processes t) + added rs)%nat).
Proof.
  split; [| split].
  - intros spec t' HP.
    destruct (Process_cases d spec t) as [(f & _ & E) | (_ & E)];
      rewrite E in HP; [| discriminate].
    injection HP as <-. simpl. eauto.
  - intros rs t' HP. exact (registerAll_balanced d rs t t' Hbal HP).
  - intros rs Hrs. destruct (registerAll_returns d rs t Hrs) as (t' & E & L).
    exists t'. split; [exact E |]. split; [| exact L].
    exact (registerAll_balanced d rs t t' Hbal E).
Qed.

(** ** Names of the registered children *)

#[local] Instance autoName_inj : Inj (=) (=) autoName.
Proof.
  intros a b H. unfold autoName in H.
  apply (inj (String.app "childproc ")) in H. by apply (inj pretty) in H.
Qed.

Lemma childNames_Process d spec t t' :
  Process d spec t = Done t' ->
  childNames t' = childNames t ++ [finalName t (specName spec)] /\
  processIndex t' =
    <[finalName t (specName spec) := length (processes t)]> (processIndex t).
Proof.
  intros HP.
  destruct (Process_cases d spec t) as [(f & _ & E) | (_ & E)];
    rewrite E in HP; [| discriminate].
  injection HP as <-. unfold childNames. simpl. by rewrite fmap_app.
Qed.

(** [Process] keeps the index in step with the list of names. *)
Lemma Process_indexed d spec t t' :
  indexed t -> Process d spec t = Done t' -> indexed t'.
Proof.
  intros Hi HP name. apply childNames_Process in HP as [-> ->].
  rewrite lookup_insert_is_Some', elem_of_app, list_elem_of_singleton, (Hi name).
  split; (intros [H | H]; [right | left]); done.
Qed.

(** The name that is registered is new whenever the index does not
    hold it: this is the case the two tests of [Process] cover. *)
Lemma Process_fresh_NoDup d spec t t' :
  indexed t -> NoDup (childNames t) ->
  processIndex t !! finalName t (specName spec) = None ->
  Process d spec t = Done t' ->
  NoDup (childNames t').
Proof.
  intros Hi Hnd Hfresh HP. apply childNames_Process in HP as [-> _].
  apply NoDup_app. split; [exact Hnd |]. split; [| apply NoDup_singleton].
  intros x Hx Hx'. apply list_elem_of_singleton in Hx' as ->.
  apply Hi in Hx. rewrite Hfresh in Hx. by destruct Hx.
Qed.

Lemma finalName_auto t :
  autoNamed t -> finalName t "" = autoName (length (processes t) + 1).
Proof.
  intros [Hi Hn]. unfold finalName. simpl.
  destruct (processIndex t !! autoName (length (processes t) + 1)) eqn:E;
    [| reflexivity].
  assert (autoName (length (processes t) + 1) ∈ childNames t) as Hin
    by (apply Hi; eauto).
  rewrite Hn in Hin. apply list_elem_of_fmap_inj_2 in Hin; [| apply _].
  apply elem_of_seq in Hin. lia.
Qed.

Lemma Process_autoNamed d spec t :
  specName spec = "" -> autoNamed t -> autoNamed (treeOf (Process d spec t)).
Proof.
  intros Hname Hauto.
  destruct (Process_cases d spec t) as [(f & _ & E) | (_ & E)].
  - destruct (childNames_Process d spec t _ E) as [Hn Hix].
    pose proof (Process_indexed d spec t _ (proj1 Hauto) E) as Hi.
    rewrite E in *. simpl treeOf in *. split; [exact Hi |].
    rewrite Hn, Hname, (finalName_auto t Hauto), (proj2 Hauto). simpl.
    rewrite length_app. simpl.
    rewrite (seq_app (length (processes t)) 1 1), fmap_app. simpl.
    by rewrite Nat.add_comm.
  - rewrite E. exact Hauto.
Qed.

Lemma andThen_autoNamed o (k : TreeOption) :
  autoNamed (treeOf o) -> (forall t, autoNamed t -> autoNamed (treeOf (k t))) ->
  autoNamed (treeOf (o ;;; k)).
Proof. destruct o as [t1 | msg t1]; simpl; eauto. Qed.

Lemma Processes_autoNamed d ps t :
  autoNamed t -> autoNamed (treeOf (Processes d ps t)).
Proof.
  revert t. induction ps as [| p ps IH]; intros t Hauto; simpl; [exact Hauto |].
  apply andThen_autoNamed; [by apply Process_autoNamed | exact IH].
Qed.

Lemma register_autoNamed d r t :
  unnamed r -> autoNamed t -> autoNamed (treeOf (register d r t)).
Proof.
  destruct r; simpl; intros Hu Hauto.
  - by apply Process_autoNamed.
  - by apply Processes_autoNamed.
  - by apply Process_autoNamed.
Qed.

Lemma registerAll_autoNamed d rs t :
  Forall unnamed rs -> autoNamed t -> autoNamed (treeOf (registerAll d rs t)).
Proof.
  intros Hrs. revert t. induction Hrs as [| r rs Hr _ IH]; intros t Hauto; simpl;
    [exact Hauto |].
  apply andThen_autoNamed; [by apply register_autoNamed | exact IH].
Qed.

Lemma emptyTree_autoNamed : autoNamed emptyTree.
Proof.
  split; [| reflexivity]. intros name. unfold childNames; simpl.
  rewrite lookup_empty. split; [intros [? ?]; done | by intros ?%not_elem_of_nil].
Qed.

(** When every name is left to the tree, as [Processes] and [WithTree]
    do, the children of a tree built from scratch get distinct names. *)
Lemma generated_names_distinct d rs :
  Forall unnamed rs ->
  NoDup (childNames (treeOf (registerAll d rs emptyTree))).
Proof.
  intros Hrs.
  destruct (registerAll_autoNamed d rs emptyTree Hrs emptyTree_autoNamed) as [_ ->].
  apply NoDup_fmap_2; [apply _ | apply NoDup_seq].
Qed.

(** C1, at three registrations that all return: the third child asks
    for the name of the first, the suffixed name is the name of the
    second, and it is registered under it; two children of the tree
    carry the same name. *)
Theorem colliding_names_registered_twice d :
  exists t',
    registerAll d collidingCalls emptyTree = Done t' /\
    childNames t' = ["a"; "a 3"; "a 3"] /\
    ~ NoDup (childNames t').
Proof.
  eexists. split; [vm_compute; reflexivity |].
  split; [vm_compute; reflexivity |].
  intros Hnd. change (NoDup ["a"; "a 3"; "a 3"]) in Hnd.
  apply NoDup_cons in Hnd as [_ Hnd]. apply NoDup_cons in Hnd as [Hnot _].
  apply Hnot. left.
Qed.

(** ** The theorems at concrete trees *)

Lemma Process_nil_Start_panics_witness :
  specStart noStart = None /\
  exists msg t',
    Process (5 * Second) noStart emptyTree = Panic msg t' /\
    processes t' = processes emptyTree /\
    processIndex t' = processIndex emptyTree /\
    forall rs, registerAll (5 * Second) (viaProcess noStart :: rs) emptyTree = Panic msg t'.
Proof.
  split; [reflexivity |].
  apply (Process_nil_Start_panics (5 * Second) noStart emptyTree). reflexivity.
Defined.

Lemma Process_default_Restart_witness :
  specRestart (named "worker" 0) = None /\
  specStart (named "worker" 0) <> None /\
  exists t' spec',
    Process (5 * Second) (named "worker" 0) emptyTree = Done t' /\
    processes t' = processes emptyTree ++ [spec'] /\
    specRestart spec' = Permanent.
Proof.
  split; [reflexivity |]. split; [simpl; discriminate |].
  apply (Process_default_Restart (5 * Second) (named "worker" 0) emptyTree).
  - reflexivity.
  - simpl; discriminate.
Defined.

Lemma Process_default_Shutdown_witness :
  specShutdown (named "worker" 0) = None /\
  specStart (named "worker" 0) <> None /\
  exists t' spec',
    Process (5 * Second) (named "worker" 0) emptyTree = Done t' /\
    processes t' = processes emptyTree ++ [spec'] /\
    specShutdown spec' = Timeout (5 * Second).
Proof.
  split; [reflexivity |]. split; [simpl; discriminate |].
  apply (Process_default_Shutdown (5 * Second) (named "worker" 0) emptyTree).
  - reflexivity.
  - simpl; discriminate.
Defined.

Lemma Process_appends_one_child_witness :
  specStart (named "worker" 0) <> None /\
  exists t' spec',
    Process (5 * Second) (named "worker" 0) emptyTree = Done t' /\
    processes t' = processes emptyTree ++ [spec'] /\
    forall i old, processes emptyTree !! i = Some old -> processes t' !! i = Some old.
Proof.
  split; [simpl; discriminate |].
  apply (Process_appends_one_child (5 * Second) (named "worker" 0) emptyTree).
  simpl; discriminate.
Defined.

Lemma registration_adds_runtime_state_witness :
  length (states emptyTree) = length (processes emptyTree) /\
  forall rs t', registerAll (5 * Second) rs emptyTree = Done t' ->
    length (states t') = length (processes t').
Proof.
  split; [reflexivity |].
  apply (registration_adds_runtime_state (5 * Second) emptyTree). reflexivity.
Defined.

(** C9, at a call that panics: [Process] with a nil start function
    appends the runtime state before it tests the function, so the
    tree is left with one runtime state and no child; a [Process]
    that returns on that tree then leaves two states for one child. *)
Lemma nil_Start_leaves_state_without_child :
  length (states emptyTree) = length (processes emptyTree) /\
  length (states (treeOf (registerAll (5 * Second) [viaProcess noStart] emptyTree)))
    <> length (processes
         (treeOf (registerAll (5 * Second) [viaProcess noStart] emptyTree))) /\
  length (states (treeOf (Process (5 * Second) (named "a" 0)
            (treeOf (Process (5 * Second) noStart emptyTree)))))
    <> length (processes (treeOf (Process (5 * Second) (named "a" 0)
            (treeOf (Process (5 * Second) noStart emptyTree))))).
Proof.
  split; [reflexivity |]. split; vm_compute; discriminate.
Qed.

(** ** Invariants of every sequence of registrations *)

(** A property of the tree that each call of [Process] keeps, whether
    the call returns or panics, is kept by [Processes], by [WithTree]
    and by every sequence of registration calls. *)
Section Invariant.

Variable d : Duration.
Variable P : Tree -> Prop.
Hypothesis Process_keeps : forall spec t, P t -> P (treeOf (Process d spec t)).

Lemma andThen_keeps o (k : TreeOption) :
  P (treeOf o) -> (forall t, P t -> P (treeOf (k t))) -> P (treeOf (o ;;; k)).
Proof. destruct o as [t1 | msg t1]; simpl; eauto. Qed.

Lemma Processes_keeps ps t : P t -> P (treeOf (Processes d ps t)).
Proof.
  revert t. induction ps as [| p ps IH]; intros t Ht; simpl; [exact Ht |].
  apply andThen_keeps; [by apply Process_keeps | exact IH].
Qed.

Lemma register_keeps r t : P t -> P (treeOf (register d r t)).
Proof.
  destruct r; simpl; intros Ht.
  - by apply Process_keeps.
  - by apply Processes_keeps.
  - by apply Process_keeps.
Qed.

Lemma registerAll_keeps rs t : P t -> P (treeOf (registerAll d rs t)).
Proof.
  revert t. induction rs as [| r rs IH]; intros t Ht; simpl; [exact Ht |].
  apply andThen_keeps; [by apply register_keeps | exact IH].
Qed.

End Invariant.

Lemma Process_treeOf_indexed d spec t :
  indexed t -> indexed (treeOf (Process d spec t)).
Proof.
  intros Hi. destruct (Process d spec t) as [t' | msg t'] eqn:E; simpl.
  - by eapply Process_indexed.
  - destruct (Process_panic_states d spec t msg t' E) as [_ Hp].
    destruct (Process_cases d spec t) as [(f & _ & E') | (_ & E')];
      rewrite E' in E; [discriminate |].
    injection E as _ <-. exact Hi.
Qed.

(** X1: the name index and the child list stay in step. In a tree
    where the keys of [processIndex] are exactly the names of the
    registered children, they still are after any sequence of
    [Process], [Processes] and [WithTree] calls, returned or panicked. *)
Theorem registerAll_index_holds_the_names d t (Hi : indexed t) :
  forall rs name,
    is_Some (processIndex (treeOf (registerAll d rs t)) !! name) <->
    name ∈ childNames (treeOf (registerAll d rs t)).
Proof.
  intros rs.
  exact (registerAll_keeps d indexed (Process_treeOf_indexed d) rs t Hi).
Qed.

Lemma Process_treeOf_wellIndexed d spec t :
  wellIndexed t -> wellIndexed (treeOf (Process d spec t)).
Proof.
  intros Hw. destruct (Process_cases d spec t) as [(f & _ & E) | (_ & E)];
    rewrite E; simpl; [| exact Hw].
  intros name i. unfold childNames; simpl. rewrite fmap_app. simpl.
  destruct (decide (finalName t (specName spec) = name)) as [-> | Hne].
  - rewrite lookup_insert_eq. intros [= <-].
    rewrite lookup_app_r by (by rewrite length_fmap).
    by rewrite length_fmap, Nat.sub_diag.
  - rewrite lookup_insert_ne by done. intros Hl.
    apply lookup_app_l_Some. by apply Hw.
Qed.

(** X2: an entry of the name index never dangles. In a tree where
    every entry [name -> i] of [processIndex] leads to a child at
    position [i] that carries [name], this still holds after any
    sequence of registration calls, also when two children end up
    under one name and the entry is overwritten. *)
Theorem registerAll_index_leads_to_child d t
    (Hw : forall name i, processIndex t !! name = Some i ->
            childNames t !! i = Some name) :
  forall rs name i,
    processIndex (treeOf (registerAll d rs t)) !! name = Some i ->
    childNames (treeOf (registerAll d rs t)) !! i = Some name.
Proof.
  intros rs.
  exact (registerAll_keeps d wellIndexed (Process_treeOf_wellIndexed d) rs t Hw).
Qed.

(** X3: a child that has just been registered is found by its name.
    With a start function, [Process] returns; the index then maps the
    name of the new child to its position, which is the number of
    children the tree had, and the child list holds the new child at
    that position, with the start function that was given. *)
Theorem Process_child_found_by_name d spec t (Hstart : specStart spec <> None) :
  exists t' spec',
    Process d spec t = Done t' /\
    processIndex t' !! specName spec' = Some (length (processes t)) /\
    processes t' !! length (processes t) = Some spec' /\
    specStart spec' = specStart spec.
Proof.
  destruct (specStart spec) as [f|] eqn:E; [| done].
  eexists _, (registered d t spec).
  split; [exact (Process_Some d spec t f E) |]. simpl.
  split; [by rewrite lookup_insert_eq |].
  split; [| exact E].
  rewrite lookup_app_r by lia. by rewrite Nat.sub_diag.
Qed.

(** ** The names the tree hands out *)

(** X4: when every name is left to the tree, the k-th child of a tree
    built from scratch is called "childproc k". The names of the
    children are "childproc 1", "childproc 2", ... in registration
    order, and so no two of them are equal, whether the calls are
    [Processes], [WithTree] or [Process] with an empty name. *)
Theorem generated_names_count_up d rs (Hrs : Forall unnamed rs) :
  childNames (treeOf (registerAll d rs emptyTree)) =
    autoName <$> seq 1 (length (processes (treeOf (registerAll d rs emptyTree)))) /\
  NoDup (childNames (treeOf (registerAll d rs emptyTree))).
Proof.
  destruct (registerAll_autoNamed d rs emptyTree Hrs emptyTree_autoNamed) as [_ Hn].
  split; [exact Hn |]. rewrite Hn.
  apply NoDup_fmap_2; [apply _ | apply NoDup_seq].
Qed.

Lemma append_nonempty (s s' : string) : s' <> "" -> s +:+ s' <> "".
Proof. intros Hs'. destruct s as [| c s]; simpl; [exact Hs' | discriminate]. Qed.

Lemma finalName_nonempty t name : finalName t name <> "".
Proof.
  unfold finalName. simpl.
  set (n := if decide (name = "") then _ else _).
  assert (n <> "") as Hn.
  { subst n. destruct (decide (name = "")); [| done].
    unfold autoName. simpl. discriminate. }
  destruct (processIndex t !! n); [| exact Hn].
  apply append_nonempty. unfold idSuffix. simpl. discriminate.
Qed.

Lemma Process_treeOf_allNamed d spec t :
  allNamed t -> allNamed (treeOf (Process d spec t)).
Proof.
  intros Ha. destruct (Process_cases d spec t) as [(f & _ & E) | (_ & E)];
    rewrite E; simpl; [| exact Ha].
  unfold allNamed, childNames in *; simpl. rewrite fmap_app.
  apply Forall_app. split; [exact Ha |].
  constructor; [apply finalName_nonempty | constructor].
Qed.

(** X5: no child is registered under the empty name. In a tree whose
    children all have a non-empty name, every child has a non-empty
    name after any sequence of registration calls, whatever names the
    callers pass. *)
Theorem registerAll_names_never_empty d t
    (Hnamed : Forall (fun name => name <> "") (childNames t)) :
  forall rs,
    Forall (fun name => name <> "") (childNames (treeOf (registerAll d rs t))).
Proof.
  intros rs.
  exact (registerAll_keeps d allNamed (Process_treeOf_allNamed d) rs t Hnamed).
Qed.

(** X6: a specification in which nothing is missing is registered as
    it is. When the name is not empty and not in the index, and the
    restart policy, the shutdown policy and the start function are all
    given, [Process] returns and the child it has appended is the
    specification the caller passed, field for field. *)
Theorem Process_complete_spec_unchanged d spec t
    (Hname : specName spec <> "")
    (Hfree : processIndex t !! specName spec = None)
    (Hrestart : specRestart spec <> None)
    (Hshutdown : specShutdown spec <> None)
    (Hstart : specStart spec <> None) :
  exists t',
    Process d spec t = Done t' /\
    processes t' = processes t ++ [spec] /\
    processIndex t' = <[specName spec := length (processes t)]> (processIndex t).
Proof.
  destruct spec as [n [r|] [s|] [f|]]; simpl in *; try done.
  eexists. split; [exact (Process_Some d (mkSpec n (Some r) (Some s) (Some f)) t f eq_refl) |].
  unfold registered, finalName; simpl.
  destruct (decide (n = "")); [done |]. rewrite Hfree. by split.
Qed.

(** X7: in an index that holds the names of the children, a name that
    is taken is registered with the position number appended. When
    the name asked for is the name of a child, [Process] registers the
    new child under that name followed by " n+1" (n children so far),
    whether or not the suffixed name is taken too; the names are
    distinct afterwards exactly when they were distinct before and the
    suffixed name was not the name of a child. *)
Theorem Process_suffixes_taken_name d spec t
    (Hi : indexed t)
    (Hname : specName spec <> "")
    (Htaken : specName spec ∈ childNames t)
    (Hstart : specStart spec <> None) :
  exists t' spec',
    Process d spec t = Done t' /\
    processes t' = processes t ++ [spec'] /\
    specName spec' =
      specName spec +:+ " " +:+ pretty (length (processes t) + 1)%nat /\
    (NoDup (childNames t') <->
       NoDup (childNames t) /\
       (specName spec +:+ " " +:+ pretty (length (processes t) + 1)%nat
          ∉ childNames t)).
Proof.
  destruct (specStart spec) as [f|] eqn:E; [| done].
  pose proof (Process_Some d spec t f E) as HP.
  assert (finalName t (specName spec) =
          specName spec +:+ " " +:+ pretty (length (processes t) + 1)%nat) as Hfn.
  { unfold finalName. simpl. destruct (decide (specName spec = "")); [done |].
    apply Hi in Htaken as [i ->]. reflexivity. }
  eexists _, (registered d t spec). split; [exact HP |].
  split; [reflexivity |]. split; [exact Hfn |].
  destruct (childNames_Process d spec t _ HP) as [-> _]. rewrite Hfn.
  rewrite NoDup_app. split.
  - intros (Hnd & Hout & _). split; [exact Hnd |].
    intros Hin. apply (Hout _ Hin). left.
  - intros (Hnd & Hout). split; [exact Hnd |]. split; [| apply NoDup_singleton].
    intros x Hx Hx'. apply list_elem_of_singleton in Hx' as ->. by apply Hout.
Qed.

(** ** Configuration and registration do not interfere *)

Lemma Process_treeOf_sameSettings d t0 spec t :
  sameSettings t0 t -> sameSettings t0 (treeOf (Process d spec t)).
Proof.
  intros Hs. destruct (Process_cases d spec t) as [(f & _ & E) | (_ & E)];
    rewrite E; exact Hs.
Qed.

Lemma registerAll_sameSettings d rs t :
  sameSettings t (treeOf (registerAll d rs t)).
Proof.
  apply (registerAll_keeps d (sameSettings t)
           (fun spec u => Process_treeOf_sameSettings d t spec u) rs t).
  by repeat split.
Qed.

(** X8: registering children never changes the configuration. After
    any sequence of [Process], [Processes] and [WithTree] calls,
    returned or panicked, [maxR], [maxT], the strategy and the logger
    are the ones the tree had before. *)
Theorem registerAll_keeps_settings d rs t :
  maxR (treeOf (registerAll d rs t)) = maxR t /\
  maxT (treeOf (registerAll d rs t)) = maxT t /\
  strategy (treeOf (registerAll d rs t)) = strategy t /\
  logger (treeOf (registerAll d rs t)) = logger t.
Proof. exact (registerAll_sameSettings d rs t). Qed.

(** X9: the configuration options never panic and never touch the
    children. Each of [WithSpecification], [WithRestartIntensity],
    [NeverHalt], [DefaultRestartIntensity], [WithRestartStrategy],
    [DefaultRestartStrategy] and [WithLogger] returns, with the runtime
    states, the child list and the name index as they were. *)
Theorem configure_keeps_children s t :
  exists t', configure s t = Done t' /\
    states t' = states t /\
    processes t' = processes t /\
    processIndex t' = processIndex t.
Proof. destruct s; eexists; (split; [reflexivity |]); by repeat split. Qed.

Lemma Process_withSettings d spec r m s l t :
  Process d spec (withSettings r m s l t) =
    onTree (withSettings r m s l) (Process d spec t).
Proof.
  destruct (Process_cases d spec t) as [(f & Hf & E) | (Hf & E)]; rewrite E.
  - rewrite (Process_Some d spec _ f Hf). reflexivity.
  - rewrite (Process_None d spec _ Hf). reflexivity.
Qed.

Lemma andThen_onTree g o (k : TreeOption) :
  (forall t, k (g t) = onTree g (k t)) ->
  onTree g o ;;; k = onTree g (o ;;; k).
Proof. intros Hk. destruct o as [t | msg t]; simpl; [apply Hk | reflexivity]. Qed.

Lemma Processes_withSettings d ps r m s l t :
  Processes d ps (withSettings r m s l t) =
    onTree (withSettings r m s l) (Processes d ps t).
Proof.
  revert t. induction ps as [| p ps IH]; intros t; simpl; [reflexivity |].
  rewrite Process_withSettings. apply andThen_onTree. exact IH.
Qed.

Lemma register_withSettings d rg r m s l t :
  register d rg (withSettings r m s l t) =
    onTree (withSettings r m s l) (register d rg t).
Proof.
  destruct rg; simpl.
  - apply Process_withSettings.
  - apply Processes_withSettings.
  - apply Process_withSettings.
Qed.

Lemma registerAll_withSettings d rs r m s l t :
  registerAll d rs (withSettings r m s l t) =
    onTree (withSettings r m s l) (registerAll d rs t).
Proof.
  revert t. induction rs as [| rg rs IH]; intros t; simpl; [reflexivity |].
  rewrite register_withSettings. apply andThen_onTree. exact IH.
Qed.

(** What a configuration call writes depends on the configuration it
    finds and on nothing else. *)
Lemma configure_withSettings c t :
  exists r m s l, forall u, sameSettings t u ->
    configure c u = Done (withSettings r m s l u).
Proof.
  destruct c; simpl.
  - exists maxR', maxT', strategy', (logger t).
    intros [] (? & ? & ? & ?); simpl in *; by subst.
  - exists maxR', maxT', (strategy t), (logger t).
    intros [] (? & ? & ? & ?); simpl in *; by subst.
  - exists (-1), (maxT t), (strategy t), (logger t).
    intros [] (? & ? & ? & ?); simpl in *; by subst.
  - exists DefaultMaxR, DefaultMaxT, (strategy t), (logger t).
    intros [] (? & ? & ? & ?); simpl in *; by subst.
  - exists (maxR t), (maxT t), strategy', (logger t).
    intros [] (? & ? & ? & ?); simpl in *; by subst.
  - exists (maxR t), (maxT t), OneForOne, (logger t).
    intros [] (? & ? & ? & ?); simpl in *; by subst.
  - exists (maxR t), (maxT t), (strategy t), logger'.
    intros [] (? & ? & ? & ?); simpl in *; by subst.
Qed.

(** X10: a configuration option may be passed before or after the
    children. When a sequence of registration calls returns, applying
    a configuration option first and the registrations next ends in
    the same tree as applying the registrations first and the option
    next. *)
Theorem configure_commutes_with_registration d c rs t t'
    (Hrs : registerAll d rs t = Done t') :
  configure c t ;;; registerAll d rs = configure c t'.
Proof.
  destruct (configure_withSettings c t) as (r & m & s & l & Hc).
  rewrite (Hc t) by (by repeat split). rewrite andThen_Done.
  rewrite registerAll_withSettings, Hrs. simpl.
  symmetry. apply Hc.
  pose proof (registerAll_sameSettings d rs t) as Hk.
  rewrite Hrs in Hk. exact Hk.
Qed.

(** X11: the order in which the tolerance options are passed decides.
    [WithRestartIntensity] after [NeverHalt] undoes it;
    [NeverHalt] after [WithRestartIntensity] keeps the window [maxT]
    of the latter with [maxR = -1]; [DefaultRestartIntensity] after
    [NeverHalt] gives the defaults; and [NeverHalt] after
    [WithSpecification] keeps the window and the strategy. *)
Theorem tolerance_last_option_wins r m s t :
  (NeverHalt t ;;; WithRestartIntensity r m) = WithRestartIntensity r m t /\
  (WithRestartIntensity r m t ;;; NeverHalt) = WithRestartIntensity (-1) m t /\
  (NeverHalt t ;;; DefaultRestartIntensity) = DefaultRestartIntensity t /\
  (WithSpecification r m s t ;;; NeverHalt) = WithSpecification (-1) m s t.
Proof. repeat split. Qed.

(** ** [Processes] as a loop *)

(** X12: the arguments of [Processes] may be split over two calls.
    [Processes] on a list followed by another ends in the same outcome
    as [Processes] on the first list and then, if that returns,
    [Processes] on the second. *)
Theorem Processes_split_arguments d ps1 ps2 t :
  Processes d (ps1 ++ ps2) t = Processes d ps1 t ;;; Processes d ps2.
Proof.
  revert t. induction ps1 as [| p ps1 IH]; intros t; simpl; [reflexivity |].
  rewrite andThen_assoc.
  destruct (Process d (mkSpec "" Permanent None p) t) as [t1 | msg t1]; simpl;
    [apply IH | reflexivity].
Qed.

Lemma Processes_nil_head d rest t :
  Processes d (None :: rest) t =
    Panic "child process must always have a function"
          (set_states (states t ++ [freshState]) t).
Proof.
  simpl. by rewrite (Process_None d (mkSpec "" Permanent None None) t eq_refl).
Qed.

(** X13: [Processes] stops at the first nil function. The functions
    before it are registered, in order, after the children the tree
    had; then the call panics, having added a runtime state for each
    of them and one more, and the arguments after the nil one are not
    looked at. *)
Theorem Processes_stops_at_nil d (fs : list processFn) rest t :
  exists t',
    Processes d ((Some <$> fs) ++ None :: rest) t =
      Panic "child process must always have a function" t' /\
    specStart <$> processes t' = (specStart <$> processes t) ++ (Some <$> fs) /\
    length (states t') = (length (states t) + length fs + 1)%nat.
Proof.
  revert t. induction fs as [| f fs IH]; intros t.
  - eexists. split; [exact (Processes_nil_head d rest t) |]. simpl.
    rewrite app_nil_r, length_app. simpl. split; [reflexivity | lia].
  - rewrite fmap_cons. simpl.
    rewrite (Process_Some d (mkSpec "" Permanent None (Some f)) t f eq_refl).
    rewrite andThen_Done.
    match goal with |- context [Processes d _ ?u] =>
      destruct (IH u) as (t' & E & Hst & Hlen) end.
    exists t'. split; [exact E |]. simpl in Hst, Hlen.
    rewrite Hst, Hlen, fmap_app, length_app. simpl.
    split; [by rewrite <- app_assoc | lia].
Qed.

(** ** Runtime states *)

Lemma andThen_Panic_inv o (k : TreeOption) msg t' :
  o ;;; k = Panic msg t' ->
  o = Panic msg t' \/ exists t1, o = Done t1 /\ k t1 = Panic msg t'.
Proof. destruct o as [t1 | msg1 t1]; simpl; [eauto | intros [= -> ->]; by left]. Qed.

Lemma Process_panic_shape d spec t msg t' :
  balanced t -> Process d spec t = Panic msg t' ->
  msg = "child process must always have a function" /\
  length (states t') = S (length (processes t')).
Proof.
  unfold balanced. intros Hb HP.
  destruct (Process_cases d spec t) as [(f & _ & E) | (_ & E)];
    rewrite E in HP; [discriminate |].
  injection HP as <- <-. split; [reflexivity |]. simpl.
  rewrite length_app. simpl. lia.
Qed.

Lemma Processes_panic_shape d ps t msg t' :
  balanced t -> Processes d ps t = Panic msg t' ->
  msg = "child process must always have a function" /\
  length (states t') = S (length (processes t')).
Proof.
  revert t. induction ps as [| p ps IH]; simpl; intros t Hb HP; [discriminate |].
  apply andThen_Panic_inv in HP as [HP | (t1 & H1 & H2)].
  - by eapply Process_panic_shape.
  - eapply IH; [| exact H2]. by eapply Process_balanced.
Qed.

Lemma register_panic_shape d r t msg t' :
  balanced t -> register d r t = Panic msg t' ->
  msg = "child process must always have a function" /\
  length (states t') = S (length (processes t')).
Proof.
  destruct r; simpl.
  - apply Process_panic_shape.
  - apply Processes_panic_shape.
  - apply Process_panic_shape.
Qed.

(** X14: a panic during registration leaves the tree with one runtime
    state too many. When a sequence of registration calls on a tree
    with one runtime state per child panics, the message is the one of
    the missing start function, and the tree is left with exactly one
    runtime state more than it has children. *)
Theorem registerAll_panic_leaves_extra_state d rs t msg t'
    (Hbal : length (states t) = length (processes t))
    (Hpanic : registerAll d rs t = Panic msg t') :
  msg = "child process must always have a function" /\
  length (states t') = S (length (processes t')).
Proof.
  revert t Hbal Hpanic. induction rs as [| r rs IH]; simpl; intros t Hb HP;
    [discriminate |].
  apply andThen_Panic_inv in HP as [HP | (t1 & H1 & H2)].
  - by eapply register_panic_shape.
  - eapply IH; [| exact H2]. by eapply register_balanced.
Qed.

Lemma Process_treeOf_fresh_states d t0 spec t :
  (exists k, states t = states t0 ++ replicate k freshState) ->
  exists k, states (treeOf (Process d spec t)) = states t0 ++ replicate k freshState.
Proof.
  intros [k Hk]. exists (S k).
  rewrite replicate_S_end, app_assoc, <- Hk.
  destruct (Process_cases d spec t) as [(f & _ & E) | (_ & E)]; by rewrite E.
Qed.

(** X15: registration only appends runtime states, and each one is in
    the "stopped before start" state. After any sequence of
    registration calls, returned or panicked, the runtime states are
    the ones the tree had, in their places, followed by states whose
    [stop] logs "stopped before start". *)
Theorem registerAll_appends_fresh_states d rs t :
  exists k,
    states (treeOf (registerAll d rs t)) =
      states t ++ replicate k (mkState printlnStoppedBeforeStart).
Proof.
  apply (registerAll_keeps d
           (fun u => exists k, states u = states t ++ replicate k freshState)
           (fun spec u => Process_treeOf_fresh_states d t spec u) rs t).
  exists 0%nat. simpl. by rewrite app_nil_r.
Qed.

(** ** One option value applied more than once *)

Lemma ProcessClosure_outcome d spec t :
  fst (ProcessClosure d spec t) = Process d spec t.
Proof.
  destruct spec as [n r s st].
  unfold ProcessClosure, Process; simpl.
  destruct (decide (n = "")); simpl;
    (match goal with |- context [processIndex t !! ?k] =>
       destruct (processIndex t !! k) end); simpl;
    destruct r, s, st; reflexivity.
Qed.

Lemma ProcessClosure_captured d spec t :
  snd (ProcessClosure d spec t) = registered d t spec.
Proof.
  destruct spec as [n r s st].
  unfold ProcessClosure, registered, finalName; simpl.
  destruct (decide (n = "")); simpl;
    (match goal with |- context [processIndex t !! ?k] =>
       destruct (processIndex t !! k) end); simpl;
    destruct r, s, st; reflexivity.
Qed.

(** X16: an option built by [Process] remembers the name it was given.
    When one option value with a start function is applied twice to a
    tree, both calls return and two children are appended; the second
    is registered under the name of the first followed by its own
    position number, and has the restart policy, the shutdown policy
    and the start function of the first. *)
Theorem Process_option_applied_twice d spec t (Hstart : specStart spec <> None) :
  exists t' first second,
    ProcessTwice d spec t = Done t' /\
    processes t' = processes t ++ [first; second] /\
    specName second =
      specName first +:+ " " +:+ pretty (length (processes t) + 2)%nat /\
    specRestart second = specRestart first /\
    specShutdown second = specShutdown first /\
    specStart second = specStart first.
Proof.
  destruct (specStart spec) as [f|] eqn:E; [| done].
  unfold ProcessTwice.
  pose proof (ProcessClosure_outcome d spec t) as Ho.
  pose proof (ProcessClosure_captured d spec t) as Hc.
  destruct (ProcessClosure d spec t) as [o spec1]; simpl in Ho, Hc; subst o spec1.
  rewrite (Process_Some d spec t f E), andThen_Done, ProcessClosure_outcome.
  set (t1 := mkTree _ _ _ _ _ _ _).
  assert (specStart (registered d t spec) = Some f) as E1 by exact E.
  rewrite (Process_Some d (registered d t spec) t1 f E1).
  eexists _, (registered d t spec), (registered d t1 (registered d t spec)).
  split; [reflexivity |]. subst t1. simpl.
  split; [by rewrite <- app_assoc |].
  split.
  - unfold finalName at 1. simpl.
    destruct (decide (finalName t (specName spec) = "")) as [He | _];
      [by apply finalName_nonempty in He |].
    rewrite lookup_insert_eq, length_app. simpl. unfold idSuffix.
    by replace (length (processes t) + 1 + 1)%nat
      with (length (processes t) + 2)%nat by lia.
  - split; [by destruct (specRestart spec) |].
    split; [by destruct (specShutdown spec) | reflexivity].
Qed.

(** ** Looking a child up by its name *)

(** A registration under a name the index does not hold keeps every
    child reachable through the index. *)
Lemma Process_fresh_reachable d spec t t' :
  indexed t -> reachable t ->
  processIndex t !! finalName t (specName spec) = None ->
  Process d spec t = Done t' ->
  reachable t'.
Proof.
  intros Hi Hr Hfresh HP i name. apply childNames_Process in HP as [-> ->].
  intros Hl. apply lookup_app_Some in Hl as [Hl | [Hge Hl]].
  - assert (finalName t (specName spec) <> name) as Hne.
    { intros <-. apply list_elem_of_lookup_2 in Hl. apply Hi in Hl.
      rewrite Hfresh in Hl. by destruct Hl. }
    rewrite lookup_insert_ne by done. by apply Hr.
  - unfold childNames in *. rewrite length_fmap in *.
    apply list_lookup_singleton_Some in Hl as [Hz <-].
    rewrite lookup_insert_eq. f_equal. lia.
Qed.

Lemma Process_auto_reachable d spec t :
  specName spec = "" -> autoNamed t /\ reachable t ->
  autoNamed (treeOf (Process d spec t)) /\ reachable (treeOf (Process d spec t)).
Proof.
  intros Hname [Hauto Hr]. split; [by apply Process_autoNamed |].
  destruct (Process_cases d spec t) as [(f & _ & E) | (_ & E)]; rewrite E; simpl.
  - eapply (Process_fresh_reachable d spec t); [exact (proj1 Hauto) | exact Hr | | exact E].
    rewrite Hname, (finalName_auto t Hauto).
    destruct (processIndex t !! _) eqn:El; [| reflexivity].
    assert (autoName (length (processes t) + 1) ∈ childNames t) as Hin
      by (apply (proj1 Hauto); eauto).
    rewrite (proj2 Hauto) in Hin.
    apply list_elem_of_fmap_inj_2 in Hin; [| apply _].
    apply elem_of_seq in Hin. lia.
  - exact Hr.
Qed.

Lemma Processes_auto_reachable d ps t :
  autoNamed t /\ reachable t ->
  autoNamed (treeOf (Processes d ps t)) /\ reachable (treeOf (Processes d ps t)).
Proof.
  revert t. induction ps as [| p ps IH]; intros t Ht; simpl; [exact Ht |].
  pose proof (Process_auto_reachable d (mkSpec "" Permanent None p) t eq_refl Ht) as H1.
  destruct (Process d (mkSpec "" Permanent None p) t) as [t1 | msg t1]; simpl in *;
    [by apply IH | exact H1].
Qed.

Lemma register_auto_reachable d r t :
  unnamed r -> autoNamed t /\ reachable t ->
  autoNamed (treeOf (register d r t)) /\ reachable (treeOf (register d r t)).
Proof.
  destruct r; simpl; intros Hu Ht.
  - by apply Process_auto_reachable.
  - by apply Processes_auto_reachable.
  - by apply Process_auto_reachable.
Qed.

Lemma registerAll_auto_reachable d rs t :
  Forall unnamed rs -> autoNamed t /\ reachable t ->
  autoNamed (treeOf (registerAll d rs t)) /\ reachable (treeOf (registerAll d rs t)).
Proof.
  intros Hrs. revert t. induction Hrs as [| r rs Hr _ IH]; intros t Ht; simpl;
    [exact Ht |].
  pose proof (register_auto_reachable d r t Hr Ht) as H1.
  destruct (register d r t) as [t1 | msg t1]; simpl in *; [by apply IH | exact H1].
Qed.

(** X17: with generated names the index finds every child. When every
    name is left to the tree, then in a tree built from scratch the
    index maps the name of the child at position [i] to [i], for each
    child, after any sequence of registration calls. *)
Theorem generated_names_find_every_child d rs (Hrs : Forall unnamed rs) :
  forall i name,
    childNames (treeOf (registerAll d rs emptyTree)) !! i = Some name ->
    processIndex (treeOf (registerAll d rs emptyTree)) !! name = Some i.
Proof.
  apply (registerAll_auto_reachable d rs emptyTree Hrs).
  split; [exact emptyTree_autoNamed |]. intros i name Hl. discriminate Hl.
Qed.

(** ** The added theorems at concrete trees *)

Lemma oneChild_indexed : indexed oneChild.
Proof.
  intros name. unfold childNames; simpl. split.
  - intros [i Hi]. apply lookup_singleton_Some in Hi as [<- _]. left.
  - intros ->%list_elem_of_singleton. rewrite lookup_singleton_eq. eauto.
Qed.

Lemma oneChild_wellIndexed : wellIndexed oneChild.
Proof.
  intros name i Hi. simpl in Hi.
  apply lookup_singleton_Some in Hi as [<- <-]. reflexivity.
Qed.

Lemma registerAll_index_holds_the_names_witness :
  indexed oneChild /\
  forall rs name,
    is_Some (processIndex (treeOf (registerAll (5 * Second) rs oneChild)) !! name) <->
    name ∈ childNames (treeOf (registerAll (5 * Second) rs oneChild)).
Proof.
  split; [exact oneChild_indexed |].
  apply (registerAll_index_holds_the_names (5 * Second) oneChild).
  exact oneChild_indexed.
Defined.

Lemma registerAll_index_leads_to_child_witness :
  wellIndexed oneChild /\
  forall rs name i,
    processIndex (treeOf (registerAll (5 * Second) rs oneChild)) !! name = Some i ->
    childNames (treeOf (registerAll (5 * Second) rs oneChild)) !! i = Some name.
Proof.
  split; [exact oneChild_wellIndexed |].
  apply (registerAll_index_leads_to_child (5 * Second) oneChild).
  exact oneChild_wellIndexed.
Defined.

Lemma Process_child_found_by_name_witness :
  specStart (named "worker" 0) <> None /\
  exists t' spec',
    Process (5 * Second) (named "worker" 0) oneChild = Done t' /\
    processIndex t' !! specName spec' = Some (length (processes oneChild)) /\
    processes t' !! length (processes oneChild) = Some spec' /\
    specStart spec' = specStart (named "worker" 0).
Proof.
  split; [simpl; discriminate |].
  apply (Process_child_found_by_name (5 * Second) (named "worker" 0) oneChild).
  simpl; discriminate.
Defined.

Lemma generated_names_count_up_witness :
  Forall unnamed unnamedCalls /\
  childNames (treeOf (registerAll (5 * Second) unnamedCalls emptyTree)) =
    autoName <$> seq 1 (length (processes
      (treeOf (registerAll (5 * Second) unnamedCalls emptyTree)))) /\
  NoDup (childNames (treeOf (registerAll (5 * Second) unnamedCalls emptyTree))).
Proof.
  split; [repeat constructor |].
  apply (generated_names_count_up (5 * Second) unnamedCalls).
  repeat constructor.
Defined.

Lemma registerAll_names_never_empty_witness :
  Forall (fun name => name <> "") (childNames oneChild) /\
  forall rs,
    Forall (fun name => name <> "")
      (childNames (treeOf (registerAll (5 * Second) rs oneChild))).
Proof.
  split; [repeat constructor; discriminate |].
  apply (registerAll_names_never_empty (5 * Second) oneChild).
  repeat constructor; discriminate.
Defined.

Lemma Process_complete_spec_unchanged_witness :
  specName complete <> "" /\
  processIndex oneChild !! specName complete = None /\
  specRestart complete <> None /\
  specShutdown complete <> None /\
  specStart complete <> None /\
  exists t',
    Process (5 * Second) complete oneChild = Done t' /\
    processes t' = processes oneChild ++ [complete] /\
    processIndex t' =
      <[specName complete := length (processes oneChild)]> (processIndex oneChild).
Proof.
  split; [simpl; discriminate |]. split; [vm_compute; reflexivity |].
  split; [simpl; discriminate |]. split; [simpl; discriminate |].
  split; [simpl; discriminate |].
  apply (Process_complete_spec_unchanged (5 * Second) complete oneChild).
  - simpl; discriminate.
  - vm_compute; reflexivity.
  - simpl; discriminate.
  - simpl; discriminate.
  - simpl; discriminate.
Defined.

Lemma Process_suffixes_taken_name_witness :
  indexed oneChild /\
  specName (named "a" 1) <> "" /\
  specName (named "a" 1) ∈ childNames oneChild /\
  specStart (named "a" 1) <> None /\
  exists t' spec',
    Process (5 * Second) (named "a" 1) oneChild = Done t' /\
    processes t' = processes oneChild ++ [spec'] /\
    specName spec' =
      specName (named "a" 1) +:+ " " +:+ pretty (length (processes oneChild) + 1)%nat /\
    (NoDup (childNames t') <->
       NoDup (childNames oneChild) /\
       (specName (named "a" 1) +:+ " " +:+ pretty (length (processes oneChild) + 1)%nat
          ∉ childNames oneChild)).
Proof.
  assert (specName (named "a" 1) ∈ childNames oneChild) as Hin by left.
  split; [exact oneChild_indexed |].
  split; [simpl; discriminate |]. split; [exact Hin |].
  split; [simpl; discriminate |].
  apply (Process_suffixes_taken_name (5 * Second) (named "a" 1) oneChild).
  - exact oneChild_indexed.
  - simpl; discriminate.
  - exact Hin.
  - simpl; discriminate.
Defined.

Lemma configure_commutes_with_registration_witness :
  registerAll (5 * Second) [viaProcess (named "a" 0)] emptyTree = Done oneChild /\
  (configure viaNeverHalt emptyTree ;;;
     registerAll (5 * Second) [viaProcess (named "a" 0)]) =
  configure viaNeverHalt oneChild.
Proof.
  split; [vm_compute; reflexivity |].
  apply (configure_commutes_with_registration (5 * Second) viaNeverHalt
           [viaProcess (named "a" 0)] emptyTree oneChild).
  vm_compute; reflexivity.
Defined.

Lemma registerAll_panic_leaves_extra_state_witness :
  length (states oneChild) = length (processes oneChild) /\
  registerAll (5 * Second) [viaWithTree nilTree; viaProcess noStart] oneChild =
    Panic "child process must always have a function"
      (treeOf (registerAll (5 * Second) [viaWithTree nilTree; viaProcess noStart]
                 oneChild)) /\
  "child process must always have a function" =
    "child process must always have a function" /\
  length (states (treeOf (registerAll (5 * Second)
            [viaWithTree nilTree; viaProcess noStart] oneChild))) =
    S (length (processes (treeOf (registerAll (5 * Second)
            [viaWithTree nilTree; viaProcess noStart] oneChild)))).
Proof.
  split; [reflexivity |]. split; [vm_compute; reflexivity |].
  apply (registerAll_panic_leaves_extra_state (5 * Second)
           [viaWithTree nilTree; viaProcess noStart] oneChild).
  - reflexivity.
  - vm_compute; reflexivity.
Defined.

Lemma Process_option_applied_twice_witness :
  specStart (mkSpec "" None None (Some (userFn 0))) <> None /\
  exists t' first second,
    ProcessTwice (5 * Second) (mkSpec "" None None (Some (userFn 0))) emptyTree = Done t' /\
    processes t' = processes emptyTree ++ [first; second] /\
    specName second =
      specName first +:+ " " +:+ pretty (length (processes emptyTree) + 2)%nat /\
    specRestart second = specRestart first /\
    specShutdown second = specShutdown first /\
    specStart second = specStart first.
Proof.
  split; [simpl; discriminate |].
  apply (Process_option_applied_twice (5 * Second)
           (mkSpec "" None None (Some (userFn 0))) emptyTree).
  simpl; discriminate.
Defined.

Lemma generated_names_find_every_child_witness :
  Forall unnamed unnamedCalls /\
  forall i name,
    childNames (treeOf (registerAll (5 * Second) unnamedCalls emptyTree)) !! i
      = Some name ->
    processIndex (treeOf (registerAll (5 * Second) unnamedCalls emptyTree)) !! name
      = Some i.
Proof.
  split; [repeat constructor |].
  apply (generated_names_find_every_child (5 * Second) unnamedCalls).
  repeat constructor.
Defined.
